(** * Neo_Translate backend: the message-ingestion and reporting handlers

    A shallow embedding of [backend/main.py]: the helper
    [perform_translation] and the four endpoints [chat_text],
    [chat_audio], [get_history] and [generate_summary].

    Python values are modelled as follows.
    - [str] is a list of Unicode code points.
    - An exception is a record of its class name and of [str(e)].
    - The SQLite table [messages] is the list of its rows in rowid order.
    - The directory served under [/static] is a finite map from paths to
      file contents.
    - Everything the process cannot decide by itself (the provider's
      answers, the random UUID, the wall clock, whether a write to disk
      succeeds) is read from an [Env] record, one per request. *)

From Stdlib Require Import ZArith NArith QArith List String Ascii Permutation Sorted Lia.
From stdpp Require Import base option list gmap.

Local Open Scope Z_scope.

(** ** Python strings *)

Abbreviation char := N (only parsing).
Abbreviation str := (list N) (only parsing).

(** An ASCII literal of the source, as a [str]. *)
Definition lit (s : string) : str :=
  List.map N_of_ascii (list_ascii_of_string s).

Definition quote : char := 34%N.
Definition dot : char := 46%N.

Definition in_range (lo hi c : N) : bool := (lo <=? c)%N && (c <=? hi)%N.

(** The code points that [str.strip()] removes: those for which
    [str.isspace] holds. *)
Definition is_space (c : char) : bool :=
  in_range 9 13 c || in_range 28 32 c || (c =? 133)%N || (c =? 160)%N
  || (c =? 5760)%N || in_range 8192 8202 c || in_range 8232 8233 c
  || (c =? 8239)%N || (c =? 8287)%N || (c =? 12288)%N.

Fixpoint lstrip_by (p : char -> bool) (s : str) : str :=
  match s with
  | [] => []
  | c :: s' => if p c then lstrip_by p s' else s
  end.

Definition rstrip_by (p : char -> bool) (s : str) : str :=
  rev (lstrip_by p (rev s)).

Definition strip_by (p : char -> bool) (s : str) : str :=
  rstrip_by p (lstrip_by p s).

(** [s.strip()] *)
Definition strip (s : str) : str := strip_by is_space s.

(** [s.strip(chars)] *)
Definition strip_chars (chars : str) (s : str) : str :=
  strip_by (fun c => existsb (N.eqb c) chars) s.

(** [s.split(sep)] for a one-character separator: never empty, and empty
    fields are kept. *)
Fixpoint split (sep : char) (s : str) : list str :=
  match s with
  | [] => [[]]
  | c :: s' =>
      if (c =? sep)%N then [] :: split sep s'
      else match split sep s' with
           | [] => [[c]]
           | w :: ws => (c :: w) :: ws
           end
  end.

Definition starts_with (c : char) (s : str) : Prop := exists t, s = c :: t.
Definition ends_with (c : char) (s : str) : Prop := exists t, s = t ++ [c].
Definition starts_with_space (s : str) : Prop :=
  exists c t, s = c :: t /\ is_space c = true.
Definition ends_with_space (s : str) : Prop :=
  exists c t, s = t ++ [c] /\ is_space c = true.

(** ** Exceptions, the store and the request monad *)

Record exn := Exn { exn_class : string; exn_str : str }.

Definition IndexError : exn :=
  Exn "IndexError" (lit "list index out of range").
Definition AttributeError_strip : exn :=
  Exn "AttributeError" (lit "'NoneType' object has no attribute 'strip'").
Definition FileNotFoundError (path : str) : exn :=
  Exn "FileNotFoundError"
      (lit "[Errno 2] No such file or directory: '" ++ path ++ lit "'").

(** [class ChatMessage(Base)] *)
Record ChatMessage := {
  id : Z;
  role : str;
  original_text : str;
  translated_text : str;
  original_lang : str;
  target_lang : str;
  original_audio_url : option str;
  timestamp : Z
}.

(** [class MessageCreate(BaseModel)] *)
Record MessageCreate := {
  msg_role : str;
  msg_text : str;
  msg_target_lang : str
}.

(** The [UploadFile] of a multipart request. *)
Record UploadFile := {
  filename : str;
  file : list Byte.byte
}.

(** What the provider returns from [chat.completions.create]. *)
Record ChatCompletionMessage := { content : option str }.
Record Choice := { message : ChatCompletionMessage }.
Record ChatCompletion := { choices : list Choice }.

(** The requests sent to the provider. *)
Inductive GroqCall :=
| ChatCreate (messages : list (str * str)) (model : str) (temperature : option Q)
| TranscriptionCreate (name : str) (data : list Byte.byte) (model : str)
                      (response_format : str).

(** The outcomes, during one request, of what lies outside the process. *)
Record Env := {
  uuid4 : str;
  open_wb : option exn;
  transcription : exn + str;
  completion : exn + ChatCompletion;
  utcnow : Z;
  commit : option exn
}.

Record World := {
  rows : list ChatMessage;
  static : gmap (list N) (list Byte.byte);
  groq_log : list GroqCall
}.

Definition empty_world : World :=
  {| rows := []; static := ∅; groq_log := [] |}.

Inductive Result (A : Type) :=
| Ok (a : A)
| Raise (e : exn).
Arguments Ok {A} a.
Arguments Raise {A} e.

Definition M (A : Type) : Type := World -> Result A * World.

Definition ret {A} (a : A) : M A := fun w => (Ok a, w).
Definition raise {A} (e : exn) : M A := fun w => (Raise e, w).
Definition bind {A B} (m : M A) (k : A -> M B) : M B :=
  fun w => match m w with
           | (Ok a, w') => k a w'
           | (Raise e, w') => (Raise e, w')
           end.

(** [try: body except Exception as e: handler] *)
Definition try_except {A} (body : M A) (handler : exn -> M A) : M A :=
  fun w => match body w with
           | (Ok a, w') => (Ok a, w')
           | (Raise e, w') => handler e w'
           end.

Declare Scope py_scope.
Delimit Scope py_scope with py.
Notation "x <- m ;; k" := (bind m (fun x => k))
  (at level 100, m at next level, right associativity) : py_scope.
Notation "m ;;; k" := (bind m (fun _ => k))
  (at level 100, right associativity) : py_scope.
Local Open Scope py_scope.

(** [l[i]], with Python's negative indices. *)
Definition getitem {A} (l : list A) (i : Z) : M A :=
  let n := Z.of_nat (length l) in
  let j := if i <? 0 then i + n else i in
  if (0 <=? j) && (j <? n) then
    match l !! Z.to_nat j with
    | Some a => ret a
    | None => raise IndexError
    end
  else raise IndexError.

Definition of_outcome {A} (o : exn + A) : M A :=
  match o with
  | inl e => raise e
  | inr a => ret a
  end.

Definition check (o : option exn) : M unit :=
  match o with
  | Some e => raise e
  | None => ret tt
  end.

(** The three ways a request changes the world. *)
Definition with_call (c : GroqCall) (w : World) : World :=
  {| rows := rows w; static := static w; groq_log := groq_log w ++ [c] |}.
Definition with_file (path : str) (data : list Byte.byte) (w : World) : World :=
  {| rows := rows w; static := <[path := data]> (static w);
     groq_log := groq_log w |}.
Definition with_row (m : ChatMessage) (w : World) : World :=
  {| rows := rows w ++ [m]; static := static w; groq_log := groq_log w |}.

Definition log_call (c : GroqCall) : M unit :=
  fun w => (Ok tt, with_call c w).

(** The [id] given to a new row: one more than the largest in use. *)
Definition next_id (rs : list ChatMessage) : Z :=
  1 + fold_right Z.max 0 (List.map id rs).

(** [ChatMessage(...)] before the store has filled in [id] and
    [timestamp]. *)
Definition ChatMessage_new
    (role original_text translated_text original_lang target_lang : str)
    (original_audio_url : option str) (id timestamp : Z) : ChatMessage :=
  {| id := id; role := role; original_text := original_text;
     translated_text := translated_text; original_lang := original_lang;
     target_lang := target_lang; original_audio_url := original_audio_url;
     timestamp := timestamp |}.

(** [ORDER BY key], ascending; rows with equal keys keep their order. *)
Fixpoint insert_by (key : ChatMessage -> Z) (m : ChatMessage)
    (l : list ChatMessage) : list ChatMessage :=
  match l with
  | [] => [m]
  | x :: l' => if key m <=? key x then m :: l else x :: insert_by key m l'
  end.

Definition order_by (key : ChatMessage -> Z) (l : list ChatMessage)
  : list ChatMessage :=
  fold_right (insert_by key) [] l.

(** [db.query(ChatMessage).all()]: the rows as the table holds them. *)
Definition query_all : M (list ChatMessage) :=
  fun w => (Ok (rows w), w).

(** [db.query(ChatMessage).order_by(key).all()] *)
Definition query_order_by (key : ChatMessage -> Z) : M (list ChatMessage) :=
  fun w => (Ok (order_by key (rows w)), w).

Definition nl : char := 10%N.

(** The body of [generate_summary] answers with a JSON object of one
    field. *)
Record SummaryResponse := { summary : option str }.

Section Handlers.

Variable env : Env.

(** [str.upper], the case mapping of the Unicode database. *)
Variable upper : str -> str.

(** [client.chat.completions.create(...)] *)
Definition chat_completions_create
    (messages : list (str * str)) (model : str) (temperature : option Q)
  : M ChatCompletion :=
  log_call (ChatCreate messages model temperature) ;;;
  of_outcome (completion env).

(** [client.audio.transcriptions.create(...)] *)
Definition audio_transcriptions_create
    (name : str) (data : list Byte.byte) (model response_format : str) : M str :=
  log_call (TranscriptionCreate name data model response_format) ;;;
  of_outcome (transcription env).

Definition llama : str := lit "llama-3.3-70b-versatile".

Definition system_prompt (target_lang : str) : str :=
  lit "You are a professional medical translator. "
  ++ lit "Translate the following text into " ++ target_lang ++ lit ". "
  ++ lit "Do not explain. Do not add notes. Just return the translated text.".

Definition perform_translation (text target_lang : str) : M str :=
  try_except
    (completion <- chat_completions_create
                     [(lit "system", system_prompt target_lang);
                      (lit "user", text)]
                     llama (Some (3 # 10)%Q) ;;
     c0 <- getitem (choices completion) 0 ;;
     match content (message c0) with
     | None => raise AttributeError_strip
     | Some s => ret (strip_chars [quote] (strip s))
     end)
    (fun e => ret (lit "[Translation Error] " ++ exn_str e)).

(** [db.add(db_msg); db.commit(); db.refresh(db_msg)] *)
Definition db_add_commit_refresh (db_msg : Z -> Z -> ChatMessage)
  : M ChatMessage :=
  check (commit env) ;;;
  fun w =>
    let m := db_msg (next_id (rows w)) (utcnow env) in
    (Ok m, with_row m w).

(** [POST /chat/text] *)
Definition chat_text (msg : MessageCreate) : M ChatMessage :=
  translated <- perform_translation (msg_text msg) (msg_target_lang msg) ;;
  let db_msg :=
    ChatMessage_new (msg_role msg) (msg_text msg) translated (lit "Auto")
                    (msg_target_lang msg) None in
  db_add_commit_refresh db_msg.

(** [with open(path, "wb") as buffer: shutil.copyfileobj(src, buffer)] *)
Definition write_file (path : str) (data : list Byte.byte) : M unit :=
  check (open_wb env) ;;;
  fun w => (Ok tt, with_file path data w).

(** [with open(path, "rb") as f: f.read()] *)
Definition read_file (path : str) : M (list Byte.byte) :=
  fun w => match static w !! path with
           | Some data => (Ok data, w)
           | None => (Raise (FileNotFoundError path), w)
           end.

Definition whisper : str := lit "whisper-large-v3".

Definition audio_filename (file_ext : str) : str :=
  lit "audio_" ++ uuid4 env ++ lit "." ++ file_ext.

(** Step 2 of [chat_audio], "Transcribe (Whisper on Groq)": the [try]
    block and its handler. *)
Definition transcribe (filename file_path : str) : M str :=
  try_except
    (audio <- read_file file_path ;;
     transcription <- audio_transcriptions_create
                        filename audio whisper (lit "text") ;;
     ret (strip transcription))
    (fun e => ret (lit "[Transcription Error: " ++ exn_str e ++ lit "]")).

(** [POST /chat/audio] *)
Definition chat_audio (role target_lang : str) (upload : UploadFile)
  : M ChatMessage :=
  file_ext <- getitem (split dot (filename upload)) (-1) ;;
  let filename := audio_filename file_ext in
  let file_path := lit "static/audio/" ++ filename in
  write_file file_path (file upload) ;;;
  let audio_url := lit "/static/audio/" ++ filename in
  original_text <- transcribe filename file_path ;;
  translated_text <- perform_translation original_text target_lang ;;
  let db_msg :=
    ChatMessage_new role original_text translated_text (lit "Audio-Auto")
                    target_lang (Some audio_url) in
  db_add_commit_refresh db_msg.

(** [GET /history] *)
Definition get_history : M (list ChatMessage) :=
  query_order_by timestamp.

(** One pass of the loop of [generate_summary]. *)
Definition transcript_line (m : ChatMessage) : str :=
  upper (role m) ++ lit ": " ++ translated_text m
  ++ lit " (Original: " ++ original_text m ++ lit ")" ++ [nl].

Definition summary_prompt (transcript : str) : str :=
  lit "You are a medical scribe. Summarize the following consultation."
  ++ [nl]
  ++ lit "Format strictly as:" ++ [nl]
  ++ lit "**PATIENT SYMPTOMS:** ..." ++ [nl]
  ++ lit "**DIAGNOSIS:** ..." ++ [nl]
  ++ lit "**MEDICATIONS/PLAN:** ..." ++ [nl; nl]
  ++ lit "TRANSCRIPT:" ++ [nl] ++ transcript.

(** [GET /summarize] *)
Definition generate_summary : M SummaryResponse :=
  messages <- query_all ;;
  match messages with
  | [] => ret {| summary := Some (lit "No conversation logs found.") |}
  | _ :: _ =>
      let transcript :=
        fold_left (fun t m => t ++ transcript_line m) messages [] in
      let prompt := summary_prompt transcript in
      try_except
        (completion <- chat_completions_create
                         [(lit "user", prompt)] llama None ;;
         c0 <- getitem (choices completion) 0 ;;
         ret {| summary := content (message c0) |})
        (fun e => ret {| summary := Some (lit "Summary failed: " ++ exn_str e) |})
  end.

End Handlers.

(** ** The service: a sequence of requests, each with its own outcomes *)

Inductive Request :=
| PostChatText (msg : MessageCreate)
| PostChatAudio (role target_lang : str) (upload : UploadFile)
| GetHistory
| GetSummarize.

Inductive Response :=
| Created (m : ChatMessage)
| History (l : list ChatMessage)
| Summary (s : SummaryResponse)
| ServerError (e : exn).

Definition respond {A} (f : A -> Response) (r : Result A * World)
  : Response * World :=
  match r with
  | (Ok a, w) => (f a, w)
  | (Raise e, w) => (ServerError e, w)
  end.

Definition handle (upper : str -> str) (env : Env) (req : Request) (w : World)
  : Response * World :=
  match req with
  | PostChatText msg => respond Created (chat_text env msg w)
  | PostChatAudio role target_lang upload =>
      respond Created (chat_audio env role target_lang upload w)
  | GetHistory => respond History (get_history w)
  | GetSummarize => respond Summary (generate_summary env upper w)
  end.

Fixpoint serve (upper : str -> str) (reqs : list (Env * Request)) (w : World)
  : list Response * World :=
  match reqs with
  | [] => ([], w)
  | (env, req) :: reqs' =>
      let '(resp, w1) := handle upper env req w in
      let '(resps, w2) := serve upper reqs' w1 in
      (resp :: resps, w2)
  end.

(** ASCII case mapping, the restriction of [str.upper] to ASCII text. *)
Definition ascii_upper (s : str) : str :=
  List.map (fun c => if in_range 97 122 c then (c - 32)%N else c) s.

(** ** Vocabulary of the statements *)

(** [ext] is what follows the last dot of [name], or all of [name] when it
    has no dot. *)
Definition after_last_dot (name ext : list N) : Prop :=
  (dot ∉ ext) /\ (name = ext \/ exists pre, name = pre ++ dot :: ext).

(** The order that [ORDER BY key] establishes. *)
Definition le_key (key : ChatMessage -> Z) (a b : ChatMessage) : Prop :=
  key a <= key b.

Definition translation_error (e : exn) : list N :=
  lit "[Translation Error] " ++ exn_str e.

(** The exception, if any, that the [try] block of [perform_translation]
    raises: the provider's own, or the one met while reading a malformed
    answer. *)
Definition translation_failure (env : Env) : option exn :=
  match completion env with
  | inl e => Some e
  | inr c =>
      match choices c with
      | [] => Some IndexError
      | c0 :: _ =>
          match content (message c0) with
          | None => Some AttributeError_strip
          | Some _ => None
          end
      end
  end.

(** What [perform_translation] returns. *)
Definition translation_result (env : Env) : list N :=
  match completion env with
  | inl e => translation_error e
  | inr c =>
      match choices c with
      | [] => translation_error IndexError
      | c0 :: _ =>
          match content (message c0) with
          | None => translation_error AttributeError_strip
          | Some s => strip_chars [quote] (strip s)
          end
      end
  end.

Definition translate_call (text target_lang : list N) : GroqCall :=
  ChatCreate [(lit "system", system_prompt target_lang); (lit "user", text)]
             llama (Some (3 # 10)%Q).

(** The row that [chat_text] builds, as the store completes it in [w]. *)
Definition text_message (env : Env) (msg : MessageCreate) (w : World)
  : ChatMessage :=
  ChatMessage_new (msg_role msg) (msg_text msg) (translation_result env)
                  (lit "Auto") (msg_target_lang msg) None
                  (next_id (rows w)) (utcnow env).

Definition transcription_error (e : exn) : list N :=
  lit "[Transcription Error: " ++ exn_str e ++ lit "]".

(** What step 2 of [chat_audio] leaves in [original_text]. *)
Definition transcription_result (env : Env) : list N :=
  match transcription env with
  | inl e => transcription_error e
  | inr t => strip t
  end.

Definition transcribe_call (env : Env) (ext : list N) (data : list Byte.byte)
  : GroqCall :=
  TranscriptionCreate (audio_filename env ext) data whisper (lit "text").

Definition audio_path (env : Env) (ext : list N) : list N :=
  lit "static/audio/" ++ audio_filename env ext.

Definition audio_url (env : Env) (ext : list N) : list N :=
  lit "/static/audio/" ++ audio_filename env ext.

(** The row that [chat_audio] builds for an upload whose extension is
    [ext], as the store completes it in [w]. *)
Definition audio_message (env : Env) (role target_lang ext : list N) (w : World)
  : ChatMessage :=
  ChatMessage_new role (transcription_result env) (translation_result env)
                  (lit "Audio-Auto") target_lang (Some (audio_url env ext))
                  (next_id (rows w)) (utcnow env).

Definition summary_error (e : exn) : list N :=
  lit "Summary failed: " ++ exn_str e.

(** What [generate_summary] answers once it has called the provider. *)
Definition summary_result (env : Env) : option (list N) :=
  match completion env with
  | inl e => Some (summary_error e)
  | inr c =>
      match choices c with
      | [] => Some (summary_error IndexError)
      | c0 :: _ => content (message c0)
      end
  end.

Definition summarize_call (transcript : list N) : GroqCall :=
  ChatCreate [(lit "user", summary_prompt transcript)] llama None.

(** Neither a double quote nor white space at either end. *)
Definition surrounding_stripped (s : list N) : Prop :=
  ~ starts_with quote s /\ ~ ends_with quote s /\
  ~ starts_with_space s /\ ~ ends_with_space s.

(** Which endpoint created a row. *)
Inductive Origin := FromText | FromAudio.

Definition origin_of (req : Request) (resp : Response)
  : option (Origin * ChatMessage) :=
  match req, resp with
  | PostChatText _, Created m => Some (FromText, m)
  | PostChatAudio _ _ _, Created m => Some (FromAudio, m)
  | _, _ => None
  end.

(** The rows created during a run, oldest first, each with its origin. *)
Fixpoint insertions (reqs : list (Env * Request)) (resps : list Response)
  : list (Origin * ChatMessage) :=
  match reqs, resps with
  | (_, req) :: reqs', resp :: resps' =>
      match origin_of req resp with
      | Some x => x :: insertions reqs' resps'
      | None => insertions reqs' resps'
      end
  | _, _ => []
  end.

Definition audio_url_iff_audio (x : Origin * ChatMessage) : Prop :=
  is_Some (original_audio_url (snd x)) <-> fst x = FromAudio.

(** ** Stubs of the outside world, for the examples *)

Definition answer (s : list N) : exn + ChatCompletion :=
  inr {| choices := [ {| message := {| content := Some s |} |} ] |}.

Definition ConnectionError : exn :=
  Exn "APIConnectionError" (lit "Connection error.").

Definition stub (now : Z) (heard : exn + list N)
    (answered : exn + ChatCompletion) : Env :=
  {| uuid4 := lit "1b4e28ba-2fa1-41d2-883f-0016d3cca427";
     open_wb := None;
     transcription := heard;
     completion := answered;
     utcnow := now;
     commit := None |}.

Definition tablets : MessageCreate :=
  {| msg_role := lit "doctor";
     msg_text := lit "Take two tablets daily";
     msg_target_lang := lit "Spanish" |}.

(** "Tome dos tabletas al dia", with U+00ED for the accented letter. *)
Definition tome : list N :=
  lit "Tome dos tabletas al d" ++ [237%N] ++ lit "a".

Definition headache : MessageCreate :=
  {| msg_role := lit "patient";
     msg_text := lit "Me duele la cabeza";
     msg_target_lang := lit "English" |}.

Definition recording : UploadFile :=
  {| filename := lit "visit.2.webm"; file := [Byte.x52; Byte.x49] |}.

(** Two text messages, the wall clock stepping back between them. *)
Definition clock_steps_back : list (Env * Request) :=
  [ (stub 2 (inr []) (answer tome), PostChatText tablets);
    (stub 1 (inr []) (answer (lit "My head hurts")), PostChatText headache) ].

(** A response that carries a new row. *)
Definition is_created (resp : Response) : bool :=
  match resp with
  | Created _ => true
  | _ => false
  end.

(** The clock does not step back during the run. *)
Definition clock_monotone (reqs : list (Env * Request)) : Prop :=
  StronglySorted Z.le (List.map (fun x => utcnow (fst x)) reqs).

(** An audio URL is "/" followed by the path of a file that is there. *)
Definition url_resolves (w : World) (m : ChatMessage) : Prop :=
  match original_audio_url m with
  | Some u => exists path, u = lit "/" ++ path /\ is_Some (static w !! path)
  | None => True
  end.

(** The two provenance tags, tied to the presence of an audio URL. *)
Definition tagged (m : ChatMessage) : Prop :=
  (original_lang m = lit "Auto" /\ original_audio_url m = None) \/
  (original_lang m = lit "Audio-Auto" /\ is_Some (original_audio_url m)).


Definition DatabaseLocked : exn :=
  Exn "OperationalError" (lit "database is locked").


Definition stub_commit_fails : Env :=
  {| uuid4 := lit "1b4e28ba-2fa1-41d2-883f-0016d3cca427";
     open_wb := None;
     transcription := inr (lit "Hola");
     completion := answer (lit "Hello");
     utcnow := 4;
     commit := Some DatabaseLocked |}.

(** A table of one row, the doctor's message. *)
Definition one_row : World :=
  snd (chat_text (stub 1 (inr []) (answer tome)) tablets empty_world).

Arguments lit : simpl never.

(** ** Facts about [strip] and [split] *)

Section Strip.

Variable p : N -> bool.

Lemma lstrip_by_head (s : list N) c t :
  lstrip_by p s = c :: t -> p c = false.
Proof.
  induction s as [|a s IH]; simpl; [discriminate|].
  destruct (p a) eqn:Hpa; [exact IH|].
  intros [= <- _]. exact Hpa.
Qed.

(** [lstrip_by] only removes a prefix. *)
Lemma lstrip_by_suffix (s : list N) :
  exists pre, s = pre ++ lstrip_by p s.
Proof.
  induction s as [|a s [pre IH]]; simpl.
  - by exists [].
  - destruct (p a).
    + exists (a :: pre). simpl. by rewrite <- IH.
    + by exists [].
Qed.

(** [rstrip_by] only removes a suffix. *)
Lemma rstrip_by_prefix (s : list N) :
  exists suf, s = rstrip_by p s ++ suf.
Proof.
  unfold rstrip_by. destruct (lstrip_by_suffix (rev s)) as [pre H].
  exists (rev pre). rewrite <- rev_app_distr, <- H. by rewrite rev_involutive.
Qed.

Lemma rstrip_by_last (s : list N) c t :
  rstrip_by p s = t ++ [c] -> p c = false.
Proof.
  unfold rstrip_by. intros H.
  apply (f_equal (@rev N)) in H. rewrite rev_involutive, rev_app_distr in H.
  simpl in H. by apply lstrip_by_head in H.
Qed.

Lemma strip_by_last (s : list N) c t :
  strip_by p s = t ++ [c] -> p c = false.
Proof. apply rstrip_by_last. Qed.

Lemma strip_by_head (s : list N) c t :
  strip_by p s = c :: t -> p c = false.
Proof.
  unfold strip_by. intros H.
  destruct (rstrip_by_prefix (lstrip_by p s)) as [suf Hs].
  rewrite H in Hs. simpl in Hs. by apply lstrip_by_head in Hs.
Qed.

Lemma lstrip_by_id (s : list N) :
  (forall c t, s = c :: t -> p c = false) -> lstrip_by p s = s.
Proof.
  destruct s as [|a s]; [done|]. intros H. simpl.
  by rewrite (H a s eq_refl).
Qed.

Lemma rstrip_by_id (s : list N) :
  (forall c t, s = t ++ [c] -> p c = false) -> rstrip_by p s = s.
Proof.
  intros H. unfold rstrip_by. rewrite lstrip_by_id.
  - apply rev_involutive.
  - intros c t Hr. apply (H c (rev t)).
    apply (f_equal (@rev N)) in Hr. rewrite rev_involutive in Hr.
    by rewrite Hr.
Qed.

Lemma strip_by_id (s : list N) :
  (forall c t, s = c :: t -> p c = false) ->
  (forall c t, s = t ++ [c] -> p c = false) ->
  strip_by p s = s.
Proof.
  intros Hh Hl. unfold strip_by. rewrite (lstrip_by_id s Hh).
  by apply rstrip_by_id.
Qed.

End Strip.

Lemma is_quote_spec c : existsb (N.eqb c) [quote] = true <-> c = quote.
Proof.
  simpl. rewrite orb_false_r. apply N.eqb_eq.
Qed.

Lemma strip_chars_quote_head s :
  ~ starts_with quote (strip_chars [quote] s).
Proof.
  intros [t H]. apply strip_by_head in H.
  assert (E : existsb (N.eqb quote) [quote] = true) by (apply is_quote_spec; reflexivity).
  congruence.
Qed.

Lemma strip_chars_quote_last s :
  ~ ends_with quote (strip_chars [quote] s).
Proof.
  intros [t H]. apply strip_by_last in H.
  assert (E : existsb (N.eqb quote) [quote] = true) by (apply is_quote_spec; reflexivity).
  congruence.
Qed.

Lemma strip_head s : ~ starts_with_space (strip s).
Proof.
  intros (c & t & H & Hc). apply strip_by_head in H. congruence.
Qed.

Lemma strip_last s : ~ ends_with_space (strip s).
Proof.
  intros (c & t & H & Hc). apply strip_by_last in H. congruence.
Qed.

Lemma strip_chars_quote_id s :
  ~ starts_with quote s -> ~ ends_with quote s -> strip_chars [quote] s = s.
Proof.
  intros Hh Hl. apply strip_by_id.
  - intros c t ->. destruct (existsb _ _) eqn:E; [|done].
    apply is_quote_spec in E as ->. destruct Hh. by exists t.
  - intros c t ->. destruct (existsb _ _) eqn:E; [|done].
    apply is_quote_spec in E as ->. destruct Hl. by exists t.
Qed.

(** [split] always yields a last field, which holds no separator; the
    string is its fields, each closed by the separator, and then the last
    field. *)
Lemma split_join sep (s : list N) :
  exists fields ext,
    split sep s = fields ++ [ext] /\ (sep ∉ ext) /\
    s = concat (List.map (fun f => f ++ [sep]) fields) ++ ext.
Proof.
  induction s as [|c s (fields & ext & Hs & Hn & Hc)]; simpl.
  - exists [], []. split; [done|]. split; [apply not_elem_of_nil|done].
  - destruct (N.eqb_spec c sep) as [->|Hne].
    + exists ([] :: fields), ext. rewrite Hs. split; [done|]. split; [done|].
      simpl. by rewrite <- Hc.
    + rewrite Hs. destruct fields as [|f fields]; simpl.
      * exists [], (c :: ext). split; [done|].
        split; [by apply not_elem_of_cons|]. simpl in *. by rewrite Hc.
      * exists ((c :: f) :: fields), ext. split; [done|]. split; [done|].
        simpl in *. by rewrite Hc.
Qed.

Lemma closed_fields_end sep (fields : list (list N)) :
  fields <> [] ->
  exists pre, concat (List.map (fun f => f ++ [sep]) fields) = pre ++ [sep].
Proof.
  induction fields as [|f fs IH]; [done|]. intros _. simpl.
  destruct fs as [|g fs].
  - exists f. simpl. by rewrite app_nil_r.
  - destruct IH as [pre Hpre]; [done|]. exists ((f ++ [sep]) ++ pre).
    rewrite Hpre. by rewrite <- !app_assoc.
Qed.

Lemma split_dot_last (name : list N) :
  exists fields ext,
    split dot name = fields ++ [ext] /\ after_last_dot name ext.
Proof.
  destruct (split_join dot name) as (fields & ext & Hs & Hn & Hc).
  exists fields, ext. split; [done|]. split; [done|].
  destruct fields as [|f fs]; [by left|]. right.
  destruct (closed_fields_end dot (f :: fs)) as [pre Hpre]; [done|].
  exists pre. rewrite Hc, Hpre. by rewrite <- app_assoc.
Qed.

Lemma after_last_dot_no_dot (name ext : list N) :
  after_last_dot name ext -> dot ∉ name -> ext = name.
Proof.
  intros [_ [->|[pre ->]]] Hn; [done|]. destruct Hn.
  apply elem_of_app. right. apply elem_of_cons. by left.
Qed.

(** ** Facts about [order_by] *)

Section OrderBy.

Variable key : ChatMessage -> Z.

Lemma insert_by_Permutation m l : Permutation (insert_by key m l) (m :: l).
Proof.
  induction l as [|x l IH]; simpl; [done|].
  destruct (key m <=? key x); [done|].
  rewrite IH. apply perm_swap.
Qed.

Lemma insert_by_sorted m l :
  StronglySorted (le_key key) l -> StronglySorted (le_key key) (insert_by key m l).
Proof.
  induction 1 as [|x l Hs IH Hx]; simpl.
  - repeat constructor.
  - destruct (Z.leb_spec (key m) (key x)) as [Hle|Hlt].
    + constructor; [by constructor|]. constructor; [done|].
      eapply Forall_impl; [exact Hx|]. unfold le_key. intros; simpl in *; lia.
    + constructor; [done|].
      apply (Permutation_Forall (Permutation_sym (insert_by_Permutation m l))).
      constructor; [unfold le_key; lia|done].
Qed.

Lemma order_by_Permutation l : Permutation (order_by key l) l.
Proof.
  induction l as [|x l IH]; simpl; [done|].
  rewrite insert_by_Permutation. by constructor.
Qed.

Lemma order_by_sorted l : StronglySorted (le_key key) (order_by key l).
Proof.
  induction l as [|x l IH]; simpl; [constructor|]. by apply insert_by_sorted.
Qed.

(** Rows already in ascending order are returned as they are. *)
Lemma order_by_sorted_id l : StronglySorted (le_key key) l -> order_by key l = l.
Proof.
  induction 1 as [|x l Hs IH Hx]; simpl; [done|]. rewrite IH.
  destruct Hx as [|y l Hxy _]; simpl; [done|].
  unfold le_key in Hxy. destruct (Z.leb_spec (key x) (key y)); [done|lia].
Qed.

End OrderBy.

(** ** The handlers in closed form *)

Lemma getitem_0 {A} (x : A) (l : list A) w : getitem (x :: l) 0 w = (Ok x, w).
Proof.
  unfold getitem. cbn [Z.ltb Z.compare length].
  replace (0 <=? 0) with true by done.
  replace (0 <? Z.of_nat (S (length l))) with true by (symmetry; apply Z.ltb_lt; lia).
  done.
Qed.

Lemma getitem_0_nil {A} w : getitem (@nil A) 0 w = (Raise IndexError, w).
Proof. done. Qed.

Lemma getitem_last {A} (l : list A) (x : A) w :
  getitem (l ++ [x]) (-1) w = (Ok x, w).
Proof.
  unfold getitem. cbn [Z.ltb Z.compare].
  rewrite length_app, Nat.add_1_r.
  replace (-1 + Z.of_nat (S (length l))) with (Z.of_nat (length l)) by lia.
  replace (0 <=? Z.of_nat (length l)) with true by (symmetry; apply Z.leb_le; lia).
  replace (Z.of_nat (length l) <? Z.of_nat (S (length l))) with true
    by (symmetry; apply Z.ltb_lt; lia).
  rewrite Nat2Z.id. cbn [andb].
  by rewrite list_lookup_middle.
Qed.

Lemma perform_translation_eq env text target_lang w :
  perform_translation env text target_lang w =
  (Ok (translation_result env), with_call (translate_call text target_lang) w).
Proof.
  unfold perform_translation, try_except, bind, chat_completions_create,
    bind, log_call, of_outcome, translation_result, translate_call.
  destruct (completion env) as [e|c]; [done|]. unfold ret at 1.
  destruct (choices c) as [|c0 cs]; [done|]. rewrite getitem_0.
  by destruct (content (message c0)).
Qed.

Lemma chat_text_eq env msg w :
  chat_text env msg w =
  let w1 := with_call (translate_call (msg_text msg) (msg_target_lang msg)) w in
  match commit env with
  | Some e => (Raise e, w1)
  | None => (Ok (text_message env msg w), with_row (text_message env msg w) w1)
  end.
Proof.
  unfold chat_text, bind. rewrite perform_translation_eq.
  unfold db_add_commit_refresh, bind, check.
  by destruct (commit env).
Qed.

Lemma transcribe_eq env ext data w :
  static w !! audio_path env ext = Some data ->
  transcribe env (audio_filename env ext) (audio_path env ext) w =
  (Ok (transcription_result env), with_call (transcribe_call env ext data) w).
Proof.
  intros Hf.
  unfold transcribe, try_except, bind, read_file, audio_transcriptions_create,
    bind, log_call, of_outcome, transcription_result, transcribe_call.
  rewrite Hf. by destruct (transcription env).
Qed.

Lemma chat_audio_eq env role target_lang upload fields ext w :
  split dot (filename upload) = fields ++ [ext] ->
  chat_audio env role target_lang upload w =
  match open_wb env with
  | Some e => (Raise e, w)
  | None =>
      let w1 := with_file (audio_path env ext) (file upload) w in
      let w2 := with_call (transcribe_call env ext (file upload)) w1 in
      let w3 := with_call (translate_call (transcription_result env) target_lang) w2 in
      match commit env with
      | Some e => (Raise e, w3)
      | None =>
          (Ok (audio_message env role target_lang ext w),
           with_row (audio_message env role target_lang ext w) w3)
      end
  end.
Proof.
  intros Hs. unfold chat_audio. unfold bind at 1. rewrite Hs, getitem_last.
  unfold bind at 1. unfold write_file, bind at 1, check.
  destruct (open_wb env) as [e|]; [done|]. unfold ret at 1.
  unfold bind at 1. fold (audio_path env ext).
  rewrite (transcribe_eq env ext (file upload));
    [|by (simpl; apply lookup_insert_eq)].
  unfold bind at 1. rewrite perform_translation_eq.
  unfold db_add_commit_refresh, bind, check.
  by destruct (commit env).
Qed.

Lemma get_history_eq w :
  get_history w = (Ok (order_by timestamp (rows w)), w).
Proof. done. Qed.

Lemma transcript_loop {A} (line : A -> list N) (l : list A) (acc : list N) :
  fold_left (fun t m => t ++ line m) l acc = acc ++ concat (List.map line l).
Proof.
  revert acc. induction l as [|m l IH]; intros acc; simpl.
  - by rewrite app_nil_r.
  - by rewrite IH, <- app_assoc.
Qed.

Lemma generate_summary_eq env upper w :
  generate_summary env upper w =
  match rows w with
  | [] => (Ok {| summary := Some (lit "No conversation logs found.") |}, w)
  | _ :: _ =>
      (Ok {| summary := summary_result env |},
       with_call
         (summarize_call (concat (List.map (transcript_line upper) (rows w)))) w)
  end.
Proof.
  unfold generate_summary, bind, query_all.
  destruct (rows w) as [|m ms] eqn:Hr; [done|].
  rewrite transcript_loop. cbn [app].
  unfold try_except, bind, chat_completions_create, bind, log_call, of_outcome,
    summary_result, summarize_call.
  destruct (completion env) as [e|c]; [done|]. unfold ret at 1.
  destruct (choices c) as [|c0 cs]; [done|]. by rewrite getitem_0.
Qed.

Lemma translation_failure_result env e :
  translation_failure env = Some e ->
  translation_result env = translation_error e.
Proof.
  unfold translation_failure, translation_result.
  destruct (completion env) as [e'|c]; [by intros [= ->]|].
  destruct (choices c) as [|c0 cs]; [by intros [= <-]|].
  destruct (content (message c0)); [done|by intros [= <-]].
Qed.

Lemma slash_audio_path env ext : audio_url env ext = lit "/" ++ audio_path env ext.
Proof. done. Qed.

(** ** The translation helper *)

(** C2, as amended. When the provider answers with a text, what
    [perform_translation] returns is that text with surrounding white space
    stripped first and surrounding double quotes stripped next. The result
    neither starts nor ends with a double quote. It neither starts nor ends
    with white space when the text, once its white space is stripped, has
    no double quote at either end. *)
Theorem perform_translation_strips env text target_lang w c c0 cs s :
  completion env = inr c ->
  choices c = c0 :: cs ->
  content (message c0) = Some s ->
  let r := strip_chars [quote] (strip s) in
  fst (perform_translation env text target_lang w) = Ok r /\
  ~ starts_with quote r /\ ~ ends_with quote r /\
  (~ starts_with quote (strip s) -> ~ ends_with quote (strip s) ->
   r = strip s /\ surrounding_stripped r).
Proof.
  intros Hc Hch Hs r. rewrite perform_translation_eq. unfold translation_result.
  rewrite Hc, Hch, Hs. split; [done|].
  split; [apply strip_chars_quote_head|].
  split; [apply strip_chars_quote_last|].
  intros Hh Hl. subst r. rewrite (strip_chars_quote_id _ Hh Hl).
  split; [done|].
  repeat split; [done|done|apply strip_head|apply strip_last].
Qed.

Lemma perform_translation_strips_witness :
  let r := strip_chars [quote] (strip (lit "  Hola  ")) in
  fst (perform_translation (stub 0 (inr []) (answer (lit "  Hola  ")))
         (lit "Hello") (lit "Spanish") empty_world) = Ok r /\
  ~ starts_with quote r /\ ~ ends_with quote r /\
  (~ starts_with quote (strip (lit "  Hola  ")) ->
   ~ ends_with quote (strip (lit "  Hola  ")) ->
   r = strip (lit "  Hola  ") /\ surrounding_stripped r).
Proof.
  apply (perform_translation_strips
           (stub 0 (inr []) (answer (lit "  Hola  ")))
           (lit "Hello") (lit "Spanish") empty_world
           {| choices := [ {| message := {| content := Some (lit "  Hola  ") |} |} ] |}
           {| message := {| content := Some (lit "  Hola  ") |} |} []
           (lit "  Hola  ")); reflexivity.
Defined.

(** C2, as stated, fails: white space that lies directly inside the
    quotes of the provider's answer is still there in the result. *)
Lemma perform_translation_keeps_inner_space :
  fst (perform_translation
         (stub 0 (inr []) (answer ([quote] ++ lit " Hola " ++ [quote])))
         (lit "Hello") (lit "Spanish") empty_world) = Ok (lit " Hola ")
  /\ ~ surrounding_stripped (lit " Hola ").
Proof.
  split; [by vm_compute|].
  intros (_ & _ & Hs & _). apply Hs.
  exists 32%N, (lit "Hola "). by split.
Qed.

(** C4. When the provider fails during a translation, by raising or by a
    malformed answer, [perform_translation] does not raise: it returns
    "[Translation Error] " followed by the text of the exception. Both
    ingestion handlers then build the row with that string as
    [translated_text] and append it to the table, provided the writes to
    disk themselves succeed. *)
Theorem translation_failure_is_stored env e :
  translation_failure env = Some e ->
  (forall text target_lang w,
      fst (perform_translation env text target_lang w)
      = Ok (lit "[Translation Error] " ++ exn_str e)) /\
  (forall msg w,
      commit env = None ->
      exists m w',
        chat_text env msg w = (Ok m, w') /\
        translated_text m = lit "[Translation Error] " ++ exn_str e /\
        rows w' = rows w ++ [m]) /\
  (forall role target_lang upload w,
      open_wb env = None -> commit env = None ->
      exists m w',
        chat_audio env role target_lang upload w = (Ok m, w') /\
        translated_text m = lit "[Translation Error] " ++ exn_str e /\
        rows w' = rows w ++ [m]).
Proof.
  intros Hf. apply translation_failure_result in Hf.
  split; [|split].
  - intros. by rewrite perform_translation_eq, Hf.
  - intros msg w Hc. rewrite chat_text_eq, Hc. cbn zeta.
    eexists _, _. split; [done|]. split; [|done].
    change (translated_text (text_message env msg w))
      with (translation_result env). by rewrite Hf.
  - intros role target_lang upload w Ho Hc.
    destruct (split_dot_last (filename upload)) as (fields & ext & Hs & _).
    rewrite (chat_audio_eq _ _ _ _ _ _ _ Hs), Ho, Hc. cbn zeta.
    eexists _, _. split; [done|]. split; [|done].
    change (translated_text (audio_message env role target_lang ext w))
      with (translation_result env). by rewrite Hf.
Qed.

Lemma translation_failure_is_stored_witness :
  fst (perform_translation (stub 7 (inr (lit "Hola")) (inl ConnectionError))
         (lit "Hello") (lit "Spanish") empty_world)
  = Ok (lit "[Translation Error] Connection error.") /\
  (exists m w',
      chat_text (stub 7 (inr (lit "Hola")) (inl ConnectionError)) tablets
        empty_world = (Ok m, w') /\
      translated_text m = lit "[Translation Error] Connection error." /\
      rows w' = [m]) /\
  (exists m w',
      chat_audio (stub 7 (inr (lit "Hola")) (inl ConnectionError))
        (lit "patient") (lit "English") recording empty_world = (Ok m, w') /\
      translated_text m = lit "[Translation Error] Connection error." /\
      rows w' = [m]).
Proof.
  destruct (translation_failure_is_stored
              (stub 7 (inr (lit "Hola")) (inl ConnectionError))
              ConnectionError eq_refl) as (Ht & Hx & Ha).
  split; [apply Ht|]. split.
  - apply (Hx tablets empty_world eq_refl).
  - apply (Ha (lit "patient") (lit "English") recording empty_world
              eq_refl eq_refl).
Defined.

(** ** Text messages *)

(** C5. A text submission that the store accepts is answered with a row
    whose [original_lang] is "Auto", whose [original_audio_url] is absent,
    whose [original_text] is the submitted text and whose [translated_text]
    is what [perform_translation] returned for that text and target
    language; role and target language are kept as submitted and the row is
    appended to the table. *)
Theorem chat_text_message env msg w :
  commit env = None ->
  exists t w1 m w',
    perform_translation env (msg_text msg) (msg_target_lang msg) w = (Ok t, w1) /\
    chat_text env msg w = (Ok m, w') /\
    original_lang m = lit "Auto" /\
    original_audio_url m = None /\
    original_text m = msg_text msg /\
    translated_text m = t /\
    role m = msg_role msg /\
    target_lang m = msg_target_lang msg /\
    rows w' = rows w ++ [m].
Proof.
  intros Hc. rewrite perform_translation_eq, chat_text_eq, Hc. cbn zeta.
  by eexists _, _, _, _.
Qed.

(** The scenario of the specification: the doctor's "Take two tablets
    daily", to Spanish, with a provider that answers "Tome dos tabletas al
    dia". *)
Lemma chat_text_message_witness :
  exists m w',
    chat_text (stub 0 (inr []) (answer tome)) tablets empty_world = (Ok m, w') /\
    original_lang m = lit "Auto" /\
    original_audio_url m = None /\
    original_text m = lit "Take two tablets daily" /\
    translated_text m = tome /\
    rows w' = [m].
Proof.
  destruct (chat_text_message (stub 0 (inr []) (answer tome)) tablets
              empty_world eq_refl)
    as (t & w1 & m & w' & Ht & Hm & Hl & Hu & Ho & Htr & _ & _ & Hr).
  exists m, w'. rewrite perform_translation_eq in Ht.
  injection Ht as Ht _. rewrite <- Ht in Htr.
  repeat split; assumption.
Defined.

(** ** Audio messages *)

(** C6. An audio submission whose blob and row are both written is
    answered with a row whose [original_lang] is "Audio-Auto" and whose
    [original_audio_url] is present, not empty, and is "/" followed by the
    path under which the uploaded bytes were stored. *)
Theorem chat_audio_message env role target_lang upload w :
  open_wb env = None ->
  commit env = None ->
  exists m w' path,
    chat_audio env role target_lang upload w = (Ok m, w') /\
    original_lang m = lit "Audio-Auto" /\
    original_audio_url m = Some (lit "/" ++ path) /\
    lit "/" ++ path <> [] /\
    static w' !! path = Some (file upload).
Proof.
  intros Ho Hc.
  destruct (split_dot_last (filename upload)) as (fields & ext & Hs & _).
  rewrite (chat_audio_eq _ _ _ _ _ _ _ Hs), Ho, Hc. cbn zeta.
  eexists _, _, (audio_path env ext). split; [done|]. split; [done|].
  split; [done|]. split; [done|]. apply lookup_insert_eq.
Qed.

Lemma chat_audio_message_witness :
  exists m w' path,
    chat_audio (stub 3 (inr (lit " Me duele la cabeza ")) (answer (lit "My head hurts")))
      (lit "patient") (lit "English") recording empty_world = (Ok m, w') /\
    original_lang m = lit "Audio-Auto" /\
    original_audio_url m = Some (lit "/" ++ path) /\
    lit "/" ++ path <> [] /\
    static w' !! path = Some (file recording).
Proof.
  apply (chat_audio_message
           (stub 3 (inr (lit " Me duele la cabeza ")) (answer (lit "My head hurts")))
           (lit "patient") (lit "English") recording empty_world);
    reflexivity.
Defined.

(** C7. When the provider fails to transcribe an upload, step 2 of
    [chat_audio] does not raise: it yields "[Transcription Error: "
    followed by the text of the exception and by "]". That string becomes
    [original_text], it is the user text of the translation request sent
    next, and the row is built and appended to the table, provided the
    writes to disk themselves succeed. *)
Theorem transcription_failure_flows env e role target_lang upload w :
  transcription env = inl e ->
  open_wb env = None ->
  commit env = None ->
  let marker := lit "[Transcription Error: " ++ exn_str e ++ lit "]" in
  exists ext m w',
    fst (transcribe env (audio_filename env ext) (audio_path env ext)
           (with_file (audio_path env ext) (file upload) w)) = Ok marker /\
    chat_audio env role target_lang upload w = (Ok m, w') /\
    original_text m = marker /\
    groq_log w' = groq_log w ++ [transcribe_call env ext (file upload);
                                 translate_call marker target_lang] /\
    rows w' = rows w ++ [m].
Proof.
  intros Ht Ho Hc marker.
  destruct (split_dot_last (filename upload)) as (fields & ext & Hs & _).
  assert (Hr : transcription_result env = marker).
  { unfold transcription_result. by rewrite Ht. }
  exists ext.
  rewrite (chat_audio_eq _ _ _ _ _ _ _ Hs), Ho, Hc. cbn zeta.
  rewrite (transcribe_eq env ext (file upload));
    [|by (simpl; apply lookup_insert_eq)].
  rewrite Hr.
  eexists _, _. split; [done|]. split; [done|]. split; [exact Hr|].
  split; [|done]. simpl. by rewrite <- app_assoc.
Qed.

Lemma transcription_failure_flows_witness :
  let env := stub 3 (inl ConnectionError) (answer (lit "Error de conexion")) in
  let marker := lit "[Transcription Error: Connection error.]" in
  exists ext m w',
    fst (transcribe env (audio_filename env ext) (audio_path env ext)
           (with_file (audio_path env ext) (file recording) empty_world))
    = Ok marker /\
    chat_audio env (lit "patient") (lit "Spanish") recording empty_world
    = (Ok m, w') /\
    original_text m = marker /\
    groq_log w' = [transcribe_call env ext (file recording);
                   translate_call marker (lit "Spanish")] /\
    rows w' = [m].
Proof.
  apply (transcription_failure_flows
           (stub 3 (inl ConnectionError) (answer (lit "Error de conexion")))
           ConnectionError (lit "patient") (lit "Spanish") recording
           empty_world); reflexivity.
Defined.

(** C10. For an audio submission whose blob and row are both written, the
    blob is stored under "static/audio/" as "audio_", then the UUID drawn
    for the request, then a dot, then the extension; the extension is what
    follows the last dot of the uploaded file name, and is the whole name
    when that has no dot. The row's [original_audio_url] is
    "/static/audio/audio_" followed by the UUID, the dot and the
    extension. *)
Theorem audio_filename_extension env role target_lang upload w :
  open_wb env = None ->
  commit env = None ->
  exists ext m w',
    chat_audio env role target_lang upload w = (Ok m, w') /\
    after_last_dot (filename upload) ext /\
    (dot ∉ filename upload -> ext = filename upload) /\
    static w' !! (lit "static/audio/" ++ lit "audio_" ++ uuid4 env ++ lit "." ++ ext)
    = Some (file upload) /\
    original_audio_url m
    = Some (lit "/static/audio/audio_" ++ uuid4 env ++ lit "." ++ ext).
Proof.
  intros Ho Hc.
  destruct (split_dot_last (filename upload)) as (fields & ext & Hs & Hd).
  exists ext. rewrite (chat_audio_eq _ _ _ _ _ _ _ Hs), Ho, Hc. cbn zeta.
  eexists _, _. split; [done|]. split; [done|].
  split; [by apply after_last_dot_no_dot|].
  split; [apply lookup_insert_eq|done].
Qed.

Lemma audio_filename_extension_witness :
  let env := stub 3 (inr (lit "Hola")) (answer (lit "Hello")) in
  exists ext m w',
    chat_audio env (lit "patient") (lit "English") recording empty_world
    = (Ok m, w') /\
    after_last_dot (filename recording) ext /\
    (dot ∉ filename recording -> ext = filename recording) /\
    static w' !! (lit "static/audio/" ++ lit "audio_" ++ uuid4 env ++ lit "." ++ ext)
    = Some (file recording) /\
    original_audio_url m
    = Some (lit "/static/audio/audio_" ++ uuid4 env ++ lit "." ++ ext).
Proof.
  apply (audio_filename_extension
           (stub 3 (inr (lit "Hola")) (answer (lit "Hello")))
           (lit "patient") (lit "English") recording empty_world);
    reflexivity.
Defined.

Example chat_audio_two_dots :
  original_audio_url
    (audio_message (stub 3 (inr []) (answer [])) [] [] (lit "webm") empty_world)
  = Some (lit "/static/audio/audio_1b4e28ba-2fa1-41d2-883f-0016d3cca427.webm")
  /\ fst (chat_audio (stub 3 (inr []) (answer [])) [] [] recording empty_world)
     = Ok (audio_message (stub 3 (inr []) (answer [])) [] [] (lit "webm")
             empty_world).
Proof. by vm_compute. Qed.

Example chat_audio_no_dot :
  match fst (chat_audio (stub 3 (inr []) (answer [])) [] []
               {| filename := lit "memo"; file := [] |} empty_world) with
  | Ok m => original_audio_url m
  | Raise _ => None
  end
  = Some (lit "/static/audio/audio_1b4e28ba-2fa1-41d2-883f-0016d3cca427.memo").
Proof. by vm_compute. Qed.

(** ** Reporting *)

(** C3. On an empty table [generate_summary] answers "No conversation logs
    found." and leaves the world as it was: nothing is sent to the
    provider. *)
Theorem generate_summary_empty env upper w :
  rows w = [] ->
  generate_summary env upper w
  = (Ok {| summary := Some (lit "No conversation logs found.") |}, w)
  /\ groq_log (snd (generate_summary env upper w)) = groq_log w.
Proof.
  intros Hr. rewrite generate_summary_eq, Hr. by split.
Qed.

Lemma generate_summary_empty_witness :
  generate_summary (stub 0 (inr []) (inl ConnectionError)) ascii_upper empty_world
  = (Ok {| summary := Some (lit "No conversation logs found.") |}, empty_world)
  /\ groq_log (snd (generate_summary (stub 0 (inr []) (inl ConnectionError))
                      ascii_upper empty_world)) = [].
Proof.
  apply (generate_summary_empty (stub 0 (inr []) (inl ConnectionError))
           ascii_upper empty_world eq_refl).
Defined.

(** On a table that is not empty, [generate_summary] sends one request,
    whose prompt ends with one line per row, the rows taken as the table
    holds them. *)
Lemma generate_summary_sends_rows env upper w :
  rows w <> [] ->
  generate_summary env upper w
  = (Ok {| summary := summary_result env |},
     with_call
       (summarize_call (concat (List.map (transcript_line upper) (rows w)))) w).
Proof.
  intros Hr. rewrite generate_summary_eq. by destruct (rows w).
Qed.

(** When the table holds its rows in ascending order of timestamp, that is
    also the order of [get_history]. *)
Lemma generate_summary_sorted_rows env upper w :
  rows w <> [] ->
  StronglySorted (le_key timestamp) (rows w) ->
  exists l,
    get_history w = (Ok l, w) /\
    snd (generate_summary env upper w)
    = with_call (summarize_call (concat (List.map (transcript_line upper) l))) w.
Proof.
  intros Hr Hs. exists (rows w). rewrite get_history_eq, order_by_sorted_id by done.
  by rewrite generate_summary_sends_rows.
Qed.

(** C1, at a run where the clock steps back between two submissions: the
    table holds the later row first, [get_history] lists the rows by
    timestamp, and the transcript sent for the summary follows the table,
    not the timestamps. *)
Theorem generate_summary_ignores_timestamps :
  let w := snd (serve ascii_upper clock_steps_back empty_world) in
  let env := stub 3 (inr []) (answer (lit "**PATIENT SYMPTOMS:** headache")) in
  exists m1 m2,
    rows w = [m1; m2] /\
    timestamp m2 < timestamp m1 /\
    fst (get_history w) = Ok [m2; m1] /\
    snd (generate_summary env ascii_upper w)
    = with_call
        (summarize_call (transcript_line ascii_upper m1
                         ++ transcript_line ascii_upper m2)) w /\
    transcript_line ascii_upper m1 ++ transcript_line ascii_upper m2
    <> transcript_line ascii_upper m2 ++ transcript_line ascii_upper m1.
Proof.
  eexists _, _. split; [by vm_compute|].
  split; [by vm_compute|]. split; [by vm_compute|].
  split; [by vm_compute|]. by vm_compute.
Qed.

(** C8. After any sequence of requests, from any table, [get_history]
    answers with the rows of the table, all of them, in non-decreasing
    order of timestamp; on an empty table it answers with the empty list. *)
Theorem get_history_sorted upper reqs w0 :
  let w := snd (serve upper reqs w0) in
  (exists l,
      get_history w = (Ok l, w) /\
      StronglySorted (le_key timestamp) l /\
      Permutation l (rows w)) /\
  (forall files log,
      get_history {| rows := []; static := files; groq_log := log |}
      = (Ok [], {| rows := []; static := files; groq_log := log |})).
Proof.
  intros w. split; [|done].
  exists (order_by timestamp (rows w)). split; [done|].
  split; [apply order_by_sorted|apply order_by_Permutation].
Qed.

(** ** The table over a run *)

(** One request leaves the table as it was or appends the row it answers
    with; that row carries an audio URL exactly when [chat_audio] made
    it. *)
Lemma handle_rows upper env req w :
  match origin_of req (fst (handle upper env req w)) with
  | Some x =>
      rows (snd (handle upper env req w)) = rows w ++ [snd x] /\
      audio_url_iff_audio x
  | None => rows (snd (handle upper env req w)) = rows w
  end.
Proof.
  destruct req as [msg|role target_lang upload| |]; unfold handle.
  - rewrite chat_text_eq. cbn zeta. destruct (commit env); simpl; [done|].
    split; [done|]. unfold audio_url_iff_audio. simpl.
    split; [by intros [? ?]|done].
  - destruct (split_dot_last (filename upload)) as (fields & ext & Hs & _).
    rewrite (chat_audio_eq _ _ _ _ _ _ _ Hs). cbn zeta.
    destruct (open_wb env); [done|]. destruct (commit env); simpl; [done|].
    split; [done|]. unfold audio_url_iff_audio. simpl. by split.
  - done.
  - rewrite generate_summary_eq. by destruct (rows w) eqn:E; simpl; rewrite ?E.
Qed.

Lemma serve_cons upper env req reqs w :
  serve upper ((env, req) :: reqs) w
  = (fst (handle upper env req w)
       :: fst (serve upper reqs (snd (handle upper env req w))),
     snd (serve upper reqs (snd (handle upper env req w)))).
Proof.
  simpl. destruct (handle upper env req w) as [resp w1]. simpl.
  by destruct (serve upper reqs w1).
Qed.

Lemma serve_rows upper reqs w0 :
  rows (snd (serve upper reqs w0))
  = rows w0 ++ List.map snd (insertions reqs (fst (serve upper reqs w0))) /\
  Forall audio_url_iff_audio (insertions reqs (fst (serve upper reqs w0))).
Proof.
  revert w0. induction reqs as [|[env req] reqs IH]; intros w0.
  - simpl. by rewrite app_nil_r.
  - rewrite serve_cons. cbn [fst snd insertions].
    pose proof (handle_rows upper env req w0) as Hh.
    destruct (IH (snd (handle upper env req w0))) as [Hr Hf].
    destruct (origin_of req (fst (handle upper env req w0))) as [x|].
    + destruct Hh as [Hh Hx]. rewrite Hr, Hh. split.
      * simpl. by rewrite <- app_assoc.
      * by constructor.
    + rewrite Hr, Hh. by split.
Qed.

(** C9. In every run from the empty table, the table holds exactly the
    rows the two ingestion handlers answered with, and each of them has
    [original_audio_url] set if and only if [chat_audio] created it. No
    request changes or removes a row: from any table, a run only appends. *)
Theorem audio_url_iff_audio_origin upper reqs :
  let resps := fst (serve upper reqs empty_world) in
  let w := snd (serve upper reqs empty_world) in
  rows w = List.map snd (insertions reqs resps) /\
  Forall (fun x => is_Some (original_audio_url (snd x)) <-> fst x = FromAudio)
         (insertions reqs resps) /\
  (forall w0, exists l, rows (snd (serve upper reqs w0)) = rows w0 ++ l).
Proof.
  cbn zeta. destruct (serve_rows upper reqs empty_world) as [Hr Hf].
  split; [exact Hr|]. split; [exact Hf|].
  intros w0. eexists. apply serve_rows.
Qed.

Example mixed_run :
  List.map (fun x => (fst x, original_audio_url (snd x)))
    (insertions
       [ (stub 1 (inr []) (answer tome), PostChatText tablets);
         (stub 2 (inr (lit "Hola")) (answer (lit "Hello")),
          PostChatAudio (lit "patient") (lit "English") recording);
         (stub 3 (inr []) (answer []), GetHistory) ]
       (fst (serve ascii_upper
               [ (stub 1 (inr []) (answer tome), PostChatText tablets);
                 (stub 2 (inr (lit "Hola")) (answer (lit "Hello")),
                  PostChatAudio (lit "patient") (lit "English") recording);
                 (stub 3 (inr []) (answer []), GetHistory) ]
               empty_world)))
  = [ (FromText, None);
      (FromAudio,
       Some (lit "/static/audio/audio_1b4e28ba-2fa1-41d2-883f-0016d3cca427.webm")) ].
Proof. by vm_compute. Qed.

(** ** Further facts about [split] *)

Lemma split_not_nil sep (s : list N) : split sep s <> [].
Proof.
  destruct (split_join sep s) as (fields & ext & Hs & _). rewrite Hs.
  by destruct fields.
Qed.

(** [(a + sep + b).split(sep) == a.split(sep) + b.split(sep)] *)
Lemma split_app sep (a b : list N) :
  split sep (a ++ sep :: b) = split sep a ++ split sep b.
Proof.
  induction a as [|c a IH]; simpl.
  - by rewrite N.eqb_refl.
  - destruct (c =? sep)%N; [by rewrite IH|]. rewrite IH.
    pose proof (split_not_nil sep a). by destruct (split sep a).
Qed.

Lemma split_no_sep sep (s : list N) : sep ∉ s -> split sep s = [s].
Proof.
  induction s as [|c s IH]; [done|]. intros Hn.
  apply not_elem_of_cons in Hn as [Hc Hs]. simpl.
  destruct (N.eqb_spec c sep) as [->|_]; [done|]. by rewrite IH.
Qed.

Lemma split_last_field sep (pre ext : list N) :
  sep ∉ ext -> exists fields, split sep (pre ++ sep :: ext) = fields ++ [ext].
Proof.
  intros Hn. exists (split sep pre). by rewrite split_app, (split_no_sep _ _ Hn).
Qed.

(** ** One request, case by case *)

Lemma handle_text upper env msg w :
  handle upper env (PostChatText msg) w =
  let w1 := with_call (translate_call (msg_text msg) (msg_target_lang msg)) w in
  match commit env with
  | Some e => (ServerError e, w1)
  | None => (Created (text_message env msg w), with_row (text_message env msg w) w1)
  end.
Proof.
  unfold handle. rewrite chat_text_eq. cbn zeta. by destruct (commit env).
Qed.

Lemma handle_audio upper env role target_lang upload w :
  exists ext,
    after_last_dot (filename upload) ext /\
    handle upper env (PostChatAudio role target_lang upload) w =
    match open_wb env with
    | Some e => (ServerError e, w)
    | None =>
        let w1 := with_file (audio_path env ext) (file upload) w in
        let w2 := with_call (transcribe_call env ext (file upload)) w1 in
        let w3 := with_call (translate_call (transcription_result env) target_lang) w2 in
        match commit env with
        | Some e => (ServerError e, w3)
        | None =>
            (Created (audio_message env role target_lang ext w),
             with_row (audio_message env role target_lang ext w) w3)
        end
    end.
Proof.
  destruct (split_dot_last (filename upload)) as (fields & ext & Hs & Hd).
  exists ext. split; [done|]. unfold handle.
  rewrite (chat_audio_eq _ _ _ _ _ _ _ Hs). cbn zeta.
  destruct (open_wb env); [done|]. by destruct (commit env).
Qed.

Lemma handle_summarize upper env w :
  handle upper env GetSummarize w =
  match rows w with
  | [] => (Summary {| summary := Some (lit "No conversation logs found.") |}, w)
  | _ :: _ =>
      (Summary {| summary := summary_result env |},
       with_call
         (summarize_call (concat (List.map (transcript_line upper) (rows w)))) w)
  end.
Proof.
  unfold handle. rewrite generate_summary_eq. by destruct (rows w).
Qed.

(** An invariant kept by every request holds after every run. *)
Lemma serve_invariant upper (P : World -> Prop) :
  (forall env req w, P w -> P (snd (handle upper env req w))) ->
  forall reqs w0, P w0 -> P (snd (serve upper reqs w0)).
Proof.
  intros Hstep. induction reqs as [|[env req] reqs IH]; intros w0 H0; [done|].
  rewrite serve_cons. cbn [snd]. by apply IH, Hstep.
Qed.

(** A request answered with [Created m] has appended [m], stamped with
    the request's clock reading and with the next free [id], and has
    tagged it; any other request leaves the table as it was. *)
Lemma handle_created upper env req w :
  (rows (snd (handle upper env req w)) = rows w /\
   is_created (fst (handle upper env req w)) = false) \/
  (exists m,
      fst (handle upper env req w) = Created m /\
      rows (snd (handle upper env req w)) = rows w ++ [m] /\
      id m = next_id (rows w) /\
      timestamp m = utcnow env /\
      tagged m /\
      url_resolves (snd (handle upper env req w)) m).
Proof.
  destruct req as [msg|role target_lang upload| |].
  - rewrite handle_text. cbn zeta. destruct (commit env); [by left|].
    right. eexists. split; [done|]. split; [done|]. split; [done|].
    split; [done|]. split; [by left|done].
  - destruct (handle_audio upper env role target_lang upload w)
      as (ext & _ & ->).
    destruct (open_wb env); [by left|]. cbn zeta.
    destruct (commit env); [by left|].
    right. eexists. split; [done|]. split; [done|]. split; [done|].
    split; [done|]. split; [by right|].
    exists (audio_path env ext). split; [done|]. simpl.
    rewrite lookup_insert_eq. by eexists.
  - by left.
  - rewrite handle_summarize. left. by destruct (rows w) eqn:E; simpl; rewrite ?E.
Qed.

(** No request removes a stored file. *)
Lemma handle_static upper env req w path :
  is_Some (static w !! path) ->
  is_Some (static (snd (handle upper env req w)) !! path).
Proof.
  intros Hp. destruct req as [msg|role target_lang upload| |].
  - rewrite handle_text. cbn zeta. by destruct (commit env).
  - destruct (handle_audio upper env role target_lang upload w)
      as (ext & _ & ->).
    destruct (open_wb env); [done|]. cbn zeta.
    assert (is_Some (<[audio_path env ext := file upload]> (static w) !! path)).
    { apply lookup_insert_is_Some'. by right. }
    by destruct (commit env).
  - done.
  - rewrite handle_summarize. by destruct (rows w).
Qed.

(** ** What the helper and the handlers do when something fails *)

(** X1. Whatever the provider does, [perform_translation] returns a string
    and does not raise. It sends exactly one request: the system prompt
    naming the target language, then the text as the user message, to the
    llama model at temperature 0.3. It touches neither the table nor the
    stored files. *)
Theorem perform_translation_never_raises env text target_lang w :
  exists s w',
    perform_translation env text target_lang w = (Ok s, w') /\
    rows w' = rows w /\
    static w' = static w /\
    groq_log w' =
    groq_log w
    ++ [ChatCreate
          [(lit "system",
            lit "You are a professional medical translator. Translate the following text into "
            ++ target_lang
            ++ lit ". Do not explain. Do not add notes. Just return the translated text.");
           (lit "user", text)]
          (lit "llama-3.3-70b-versatile") (Some (3 # 10)%Q)].
Proof.
  rewrite perform_translation_eq. eexists _, _. split; [done|].
  split; [done|]. by split.
Qed.

(** X2. An answer of the provider that has no white space and no double
    quote at either end is returned as it is. *)
Theorem perform_translation_clean_answer env text target_lang w c c0 cs s :
  completion env = inr c ->
  choices c = c0 :: cs ->
  content (message c0) = Some s ->
  surrounding_stripped s ->
  fst (perform_translation env text target_lang w) = Ok s.
Proof.
  intros Hc Hch Hs (Hqh & Hql & Hsh & Hsl).
  rewrite perform_translation_eq. unfold translation_result.
  rewrite Hc, Hch, Hs. cbn [fst]. f_equal.
  assert (Hstrip : strip s = s).
  { apply strip_by_id.
    - intros a t ->. destruct (is_space a) eqn:E; [|done].
      destruct Hsh. by exists a, t.
    - intros a t ->. destruct (is_space a) eqn:E; [|done].
      destruct Hsl. by exists a, t. }
  rewrite Hstrip. by apply strip_chars_quote_id.
Qed.

Lemma tome_stripped : surrounding_stripped tome.
Proof.
  repeat split.
  - by intros [t [=]].
  - intros [t H]. apply (f_equal (@rev N)) in H.
    rewrite rev_app_distr in H. by vm_compute in H.
  - by intros (a & t & [= <- _] & [=]).
  - intros (a & t & H & Ha). apply (f_equal (@rev N)) in H.
    rewrite rev_app_distr in H. vm_compute in H.
    injection H as <- _. by vm_compute in Ha.
Defined.

Lemma perform_translation_clean_answer_witness :
  fst (perform_translation (stub 0 (inr []) (answer tome))
         (lit "Take two tablets daily") (lit "Spanish") empty_world) = Ok tome.
Proof.
  apply (perform_translation_clean_answer
           (stub 0 (inr []) (answer tome))
           (lit "Take two tablets daily") (lit "Spanish") empty_world
           {| choices := [ {| message := {| content := Some tome |} |} ] |}
           {| message := {| content := Some tome |} |} [] tome
           eq_refl eq_refl eq_refl tome_stripped).
Defined.

(** X3. When the commit of [chat_text] fails, the handler raises that
    exception; the table and the stored files are as before, but the
    translation request has already been sent. *)
Theorem chat_text_commit_failure env msg w e :
  commit env = Some e ->
  exists w',
    chat_text env msg w = (Raise e, w') /\
    rows w' = rows w /\
    static w' = static w /\
    groq_log w' =
    groq_log w ++ [translate_call (msg_text msg) (msg_target_lang msg)].
Proof.
  intros Hc. rewrite chat_text_eq, Hc. cbn zeta. by eexists.
Qed.

Lemma chat_text_commit_failure_witness :
  exists w',
    chat_text stub_commit_fails tablets one_row = (Raise DatabaseLocked, w') /\
    rows w' = rows one_row /\
    static w' = static one_row /\
    groq_log w' =
    groq_log one_row ++ [translate_call (msg_text tablets) (msg_target_lang tablets)].
Proof.
  apply (chat_text_commit_failure stub_commit_fails tablets one_row
           DatabaseLocked eq_refl).
Defined.



(** X5. When the commit of [chat_audio] fails, the handler raises that
    exception and the table is as before, but the uploaded bytes stay
    stored under the generated name and both provider requests, the
    transcription and the translation, have been sent. *)
Theorem chat_audio_commit_failure env role target_lang upload w e :
  open_wb env = None ->
  commit env = Some e ->
  exists ext w',
    chat_audio env role target_lang upload w = (Raise e, w') /\
    rows w' = rows w /\
    static w' !! (lit "static/audio/" ++ audio_filename env ext)
    = Some (file upload) /\
    groq_log w' =
    groq_log w
    ++ [TranscriptionCreate (audio_filename env ext) (file upload)
          (lit "whisper-large-v3") (lit "text");
        translate_call (transcription_result env) target_lang].
Proof.
  intros Ho Hc.
  destruct (split_dot_last (filename upload)) as (fields & ext & Hs & _).
  exists ext. rewrite (chat_audio_eq _ _ _ _ _ _ _ Hs), Ho, Hc. cbn zeta.
  eexists. split; [done|]. split; [done|].
  split; [apply lookup_insert_eq|]. simpl. by rewrite <- app_assoc.
Qed.

Lemma chat_audio_commit_failure_witness :
  exists ext w',
    chat_audio stub_commit_fails (lit "patient") (lit "English") recording
      empty_world = (Raise DatabaseLocked, w') /\
    rows w' = [] /\
    static w' !! (lit "static/audio/" ++ audio_filename stub_commit_fails ext)
    = Some (file recording) /\
    groq_log w' =
    [TranscriptionCreate (audio_filename stub_commit_fails ext) (file recording)
       (lit "whisper-large-v3") (lit "text");
     translate_call (transcription_result stub_commit_fails) (lit "English")].
Proof.
  apply (chat_audio_commit_failure stub_commit_fails (lit "patient")
           (lit "English") recording empty_world DatabaseLocked
           eq_refl eq_refl).
Defined.

(** X6. When the provider transcribes the upload, [original_text] is the
    transcription with surrounding white space stripped, so it neither
    starts nor ends with white space. The provider was sent the bytes of
    the upload under the generated file name, and the stripped text is
    what is sent for translation. *)
Theorem chat_audio_transcribed env role target_lang upload w t :
  transcription env = inr t ->
  open_wb env = None ->
  commit env = None ->
  exists ext m w',
    chat_audio env role target_lang upload w = (Ok m, w') /\
    original_text m = strip t /\
    ~ starts_with_space (original_text m) /\
    ~ ends_with_space (original_text m) /\
    groq_log w' =
    groq_log w
    ++ [TranscriptionCreate (audio_filename env ext) (file upload)
          (lit "whisper-large-v3") (lit "text");
        translate_call (strip t) target_lang].
Proof.
  intros Ht Ho Hc.
  destruct (split_dot_last (filename upload)) as (fields & ext & Hs & _).
  assert (Hr : transcription_result env = strip t).
  { unfold transcription_result. by rewrite Ht. }
  exists ext. rewrite (chat_audio_eq _ _ _ _ _ _ _ Hs), Ho, Hc. cbn zeta.
  eexists _, _. split; [done|].
  change (original_text (audio_message env role target_lang ext w))
    with (transcription_result env). rewrite Hr.
  split; [done|]. split; [apply strip_head|]. split; [apply strip_last|].
  simpl. by rewrite <- app_assoc.
Qed.

Lemma chat_audio_transcribed_witness :
  let env := stub 3 (inr (lit " Me duele la cabeza ")) (answer (lit "My head hurts")) in
  exists ext m w',
    chat_audio env (lit "patient") (lit "English") recording empty_world
    = (Ok m, w') /\
    original_text m = strip (lit " Me duele la cabeza ") /\
    ~ starts_with_space (original_text m) /\
    ~ ends_with_space (original_text m) /\
    groq_log w' =
    [TranscriptionCreate (audio_filename env ext) (file recording)
       (lit "whisper-large-v3") (lit "text");
     translate_call (strip (lit " Me duele la cabeza ")) (lit "English")].
Proof.
  apply (chat_audio_transcribed
           (stub 3 (inr (lit " Me duele la cabeza ")) (answer (lit "My head hurts")))
           (lit "patient") (lit "English") recording empty_world
           (lit " Me duele la cabeza ") eq_refl eq_refl eq_refl).
Defined.

(** X7. The name under which a blob is stored has, by the rule the code
    itself uses ([name.split(".")[-1]]), the extension of the uploaded
    name; so has the URL. *)
Theorem stored_name_keeps_extension env (name : list N) w :
  exists ext,
    fst (getitem (split dot name) (-1) w) = Ok ext /\
    fst (getitem (split dot (audio_filename env ext)) (-1) w) = Ok ext /\
    fst (getitem (split dot (lit "/static/audio/" ++ audio_filename env ext))
           (-1) w) = Ok ext.
Proof.
  destruct (split_dot_last name) as (fields & ext & Hs & Hn & _).
  exists ext. rewrite Hs, getitem_last. split; [done|].
  unfold audio_filename.
  destruct (split_last_field dot (lit "audio_" ++ uuid4 env) ext Hn)
    as [f1 H1].
  destruct (split_last_field dot
              (lit "/static/audio/" ++ lit "audio_" ++ uuid4 env) ext Hn)
    as [f2 H2].
  replace (lit "audio_" ++ uuid4 env ++ lit "." ++ ext)
    with ((lit "audio_" ++ uuid4 env) ++ dot :: ext)
    by (by rewrite <- app_assoc).
  replace (lit "/static/audio/" ++ (lit "audio_" ++ uuid4 env) ++ dot :: ext)
    with ((lit "/static/audio/" ++ lit "audio_" ++ uuid4 env) ++ dot :: ext)
    by (by rewrite <- !app_assoc).
  by rewrite H1, H2, !getitem_last.
Qed.

(** ** The summary *)


(** X9. When the provider raises during the summary of a table that is
    not empty, the answer is "Summary failed: " followed by the text of the
    exception. *)
Theorem generate_summary_failed env upper w e :
  rows w <> [] ->
  completion env = inl e ->
  fst (generate_summary env upper w)
  = Ok {| summary := Some (lit "Summary failed: " ++ exn_str e) |}.
Proof.
  intros Hr Hc. rewrite generate_summary_sends_rows by done.
  unfold summary_result. by rewrite Hc.
Qed.

Lemma generate_summary_failed_witness :
  fst (generate_summary (stub 9 (inr []) (inl ConnectionError)) ascii_upper one_row)
  = Ok {| summary := Some (lit "Summary failed: Connection error.") |}.
Proof.
  apply (generate_summary_failed (stub 9 (inr []) (inl ConnectionError))
           ascii_upper one_row ConnectionError); [by vm_compute|reflexivity].
Defined.

(** X10. The summary is the content of the provider's first choice as it
    came: nothing is stripped from it, and a choice without content gives
    a summary without value rather than an error text. An answer without
    choices gives "Summary failed: list index out of range". *)
Theorem generate_summary_answer env upper w c :
  rows w <> [] ->
  completion env = inr c ->
  fst (generate_summary env upper w)
  = Ok {| summary :=
            match choices c with
            | [] => Some (lit "Summary failed: list index out of range")
            | c0 :: _ => content (message c0)
            end |}.
Proof.
  intros Hr Hc. rewrite generate_summary_sends_rows by done.
  unfold summary_result. rewrite Hc. by destruct (choices c).
Qed.

Lemma generate_summary_answer_witness :
  fst (generate_summary (stub 9 (inr []) (answer (lit "  **DIAGNOSIS:** flu  ")))
         ascii_upper one_row)
  = Ok {| summary := Some (lit "  **DIAGNOSIS:** flu  ") |}.
Proof.
  apply (generate_summary_answer
           (stub 9 (inr []) (answer (lit "  **DIAGNOSIS:** flu  ")))
           ascii_upper one_row
           {| choices := [ {| message :=
                {| content := Some (lit "  **DIAGNOSIS:** flu  ") |} |} ] |});
    [by vm_compute|reflexivity].
Defined.

Lemma summary_prompt_app (a b : list N) :
  summary_prompt (a ++ b) = summary_prompt a ++ b.
Proof.
  unfold summary_prompt. by rewrite <- !app_assoc.
Qed.

(** X11. Every row of the table has its line in the prompt that
    [generate_summary] sends: the role in upper case, the translated text
    and the original text, whatever they hold. *)
Theorem transcript_has_every_row env upper w m :
  m ∈ rows w ->
  exists before after,
    groq_log (snd (generate_summary env upper w)) =
    groq_log w
    ++ [ChatCreate
          [(lit "user",
            before
            ++ upper (role m) ++ lit ": " ++ translated_text m
            ++ lit " (Original: " ++ original_text m ++ lit ")" ++ [nl]
            ++ after)]
          (lit "llama-3.3-70b-versatile") None].
Proof.
  intros Hm. rewrite generate_summary_sends_rows
    by (intros E; rewrite E in Hm; by apply elem_of_nil in Hm).
  apply list_elem_of_split in Hm as (l1 & l2 & ->).
  exists (summary_prompt (concat (List.map (transcript_line upper) l1))),
         (concat (List.map (transcript_line upper) l2)).
  rewrite List.map_app, concat_app. unfold summarize_call.
  rewrite summary_prompt_app.
  cbn [List.map concat snd with_call groq_log].
  unfold transcript_line, llama.
  by rewrite <- !app_assoc.
Qed.

Lemma transcript_has_every_row_witness :
  exists before after,
    groq_log (snd (generate_summary (stub 9 (inr []) (answer []))
                     ascii_upper one_row)) =
    groq_log one_row
    ++ [ChatCreate
          [(lit "user",
            before
            ++ lit "DOCTOR" ++ lit ": " ++ tome
            ++ lit " (Original: " ++ lit "Take two tablets daily" ++ lit ")"
            ++ [nl] ++ after)]
          (lit "llama-3.3-70b-versatile") None].
Proof.
  apply (transcript_has_every_row (stub 9 (inr []) (answer [])) ascii_upper
           one_row (text_message (stub 1 (inr []) (answer tome)) tablets
                      empty_world)).
  vm_compute. apply list_elem_of_here.
Defined.

(** ** Runs of the service *)

Lemma fold_max_bound (l : list Z) (a : Z) :
  0 <= a -> fold_right Z.max a l = Z.max (fold_right Z.max 0 l) a.
Proof.
  intros Ha. induction l as [|x l IH]; simpl; [lia|]. rewrite IH. lia.
Qed.

Lemma fold_max_seqZ (n : nat) :
  fold_right Z.max 0 (seqZ 1 (Z.of_nat n)) = Z.of_nat n.
Proof.
  induction n as [|n IH]; [done|].
  rewrite seqZ_S, fold_right_app. cbn [fold_right].
  rewrite fold_max_bound by lia. rewrite IH. lia.
Qed.

Lemma created_is_created upper env req w m :
  fst (handle upper env req w) = Created m ->
  rows (snd (handle upper env req w)) = rows w ++ [m] /\
  id m = next_id (rows w) /\ timestamp m = utcnow env.
Proof.
  intros Hm. destruct (handle_created upper env req w)
    as [[_ Hn]|(m' & Hm' & Hr & Hi & Ht & _)].
  - by rewrite Hm in Hn.
  - rewrite Hm in Hm'. by injection Hm' as <-.
Qed.

(** X12. A message that a request was answered with is in the answer of
    [get_history] after any further requests: nothing removes a row. *)
Theorem created_stays_in_history upper env req w m more :
  fst (handle upper env req w) = Created m ->
  exists l w',
    w' = snd (serve upper more (snd (handle upper env req w))) /\
    get_history w' = (Ok l, w') /\
    m ∈ l.
Proof.
  intros Hm. apply created_is_created in Hm as (Hr & _).
  eexists _, _. split; [done|]. split; [apply get_history_eq|].
  rewrite (order_by_Permutation timestamp).
  destruct (serve_rows upper more (snd (handle upper env req w))) as [-> _].
  rewrite Hr. apply elem_of_app. left. apply elem_of_app. right.
  apply list_elem_of_here.
Qed.

Lemma created_stays_in_history_witness :
  exists l w',
    w' = snd (serve ascii_upper
                [ (stub 1 (inr []) (answer (lit "My head hurts")),
                   PostChatText headache);
                  (stub 2 (inr []) (answer []), GetSummarize) ]
                (snd (handle ascii_upper (stub 5 (inr []) (answer tome))
                        (PostChatText tablets) empty_world))) /\
    get_history w' = (Ok l, w') /\
    text_message (stub 5 (inr []) (answer tome)) tablets empty_world ∈ l.
Proof.
  apply (created_stays_in_history ascii_upper (stub 5 (inr []) (answer tome))
           (PostChatText tablets) empty_world
           (text_message (stub 5 (inr []) (answer tome)) tablets empty_world)
           [ (stub 1 (inr []) (answer (lit "My head hurts")),
              PostChatText headache);
             (stub 2 (inr []) (answer []), GetSummarize) ]).
  reflexivity.
Defined.

(** X13. In every run from the empty table the rows carry the ids 1, 2,
    3, ... in the order of the table; no two rows share an id. *)
Theorem ids_count_up upper reqs :
  let w := snd (serve upper reqs empty_world) in
  List.map id (rows w) = seqZ 1 (Z.of_nat (length (rows w))) /\
  NoDup (List.map id (rows w)).
Proof.
  cbn zeta.
  assert (H : List.map id (rows (snd (serve upper reqs empty_world)))
              = seqZ 1 (Z.of_nat (length (rows (snd (serve upper reqs empty_world)))))).
  { apply (serve_invariant upper
             (fun w => List.map id (rows w) = seqZ 1 (Z.of_nat (length (rows w)))));
      [|done].
    intros env req w Hw.
    destruct (handle_created upper env req w)
      as [[-> _]|(m & _ & -> & Hi & _)]; [done|].
    rewrite List.map_app, length_app, Nat.add_1_r, seqZ_S, Hw.
    cbn [List.map]. rewrite Hi. unfold next_id.
    by rewrite Hw, fold_max_seqZ. }
  split; [exact H|]. rewrite H. apply NoDup_seqZ.
Qed.

(** X14. In every run from the empty table each row is tagged "Auto" and
    has no audio URL, or is tagged "Audio-Auto" and has one. *)
Theorem rows_tagged upper reqs :
  Forall (fun m =>
            (original_lang m = lit "Auto" /\ original_audio_url m = None) \/
            (original_lang m = lit "Audio-Auto" /\
             is_Some (original_audio_url m)))
         (rows (snd (serve upper reqs empty_world))).
Proof.
  apply (serve_invariant upper (fun w => Forall tagged (rows w)));
    [|by constructor].
  intros env req w Hw.
  destruct (handle_created upper env req w)
    as [[-> _]|(m & _ & -> & _ & _ & Ht & _)]; [done|].
  apply Forall_app. split; [done|]. by constructor.
Qed.

(** X15. In every run from the empty world, the audio URL of each row is
    "/" followed by the path of a file that is stored: no request removes
    a blob, so the URLs of the table never dangle. *)
Theorem audio_urls_resolve upper reqs :
  let w := snd (serve upper reqs empty_world) in
  Forall (fun m =>
            match original_audio_url m with
            | Some u =>
                exists path, u = lit "/" ++ path /\ is_Some (static w !! path)
            | None => True
            end)
         (rows w).
Proof.
  cbn zeta.
  apply (serve_invariant upper (fun w => Forall (url_resolves w) (rows w)));
    [|by constructor].
  intros env req w Hw.
  assert (Hold : Forall (url_resolves (snd (handle upper env req w))) (rows w)).
  { eapply Forall_impl; [exact Hw|]. intros m. unfold url_resolves.
    destruct (original_audio_url m); [|done].
    intros (path & -> & Hp). exists path. split; [done|].
    by apply handle_static. }
  destruct (handle_created upper env req w)
    as [[-> _]|(m & _ & -> & _ & _ & _ & Hu)]; [done|].
  apply Forall_app. split; [done|]. by constructor.
Qed.





Lemma sorted_snoc key (l : list ChatMessage) m :
  StronglySorted (le_key key) l ->
  Forall (fun x => key x <= key m) l ->
  StronglySorted (le_key key) (l ++ [m]).
Proof.
  induction 1 as [|x l Hs IH Hx]; intros Hm; simpl.
  - repeat constructor.
  - apply Forall_cons in Hm as [Hxm Hm]. constructor; [by apply IH|].
    apply Forall_app. split; [done|]. by constructor.
Qed.

Lemma readings_bounded (a : Z) (reqs : list (Env * Request)) :
  Forall (Z.le a) (List.map (fun x => utcnow (fst x)) reqs) ->
  Forall (fun x => a <= utcnow (fst x)) reqs.
Proof.
  induction reqs as [|x reqs IH]; simpl; [by constructor|].
  intros H. apply Forall_cons in H as [Hx H]. constructor; [done|by apply IH].
Qed.

Lemma serve_sorted upper reqs w0 :
  clock_monotone reqs ->
  StronglySorted (le_key timestamp) (rows w0) ->
  Forall (fun m => Forall (fun x => timestamp m <= utcnow (fst x)) reqs)
         (rows w0) ->
  StronglySorted (le_key timestamp) (rows (snd (serve upper reqs w0))).
Proof.
  unfold clock_monotone. revert w0.
  induction reqs as [|[env req] reqs IH]; intros w0 Hc Hs Hb; [done|].
  rewrite serve_cons. cbn [snd]. cbn [List.map fst] in Hc.
  apply StronglySorted_inv in Hc as [Hc Hle].
  assert (Hold : Forall (fun m => Forall (fun x => timestamp m <= utcnow (fst x)) reqs)
                        (rows w0)).
  { eapply Forall_impl; [exact Hb|]. intros m Hm. by inversion Hm. }
  apply IH; [done| |];
    destruct (handle_created upper env req w0)
      as [[-> _]|(m & _ & -> & _ & Ht & _)]; try done.
  - apply sorted_snoc; [done|]. rewrite Ht.
    eapply Forall_impl; [exact Hb|]. intros x Hx. by inversion Hx.
  - apply Forall_app. split; [done|]. constructor; [|done].
    rewrite Ht. by apply readings_bounded.
Qed.

(** X18. In a run from the empty table during which the clock never steps
    back, the table itself is in non-decreasing order of timestamp, so
    [get_history] answers with the rows in the order of the table and the
    transcript that [generate_summary] sends follows the timestamps. *)
Theorem monotone_clock_orders_table upper reqs :
  clock_monotone reqs ->
  let w := snd (serve upper reqs empty_world) in
  StronglySorted (le_key timestamp) (rows w) /\
  get_history w = (Ok (rows w), w) /\
  (rows w <> [] ->
   forall env,
     exists l,
       fst (get_history w) = Ok l /\
       groq_log (snd (generate_summary env upper w))
       = groq_log w
         ++ [summarize_call (concat (List.map (transcript_line upper) l))]).
Proof.
  intros Hc w.
  assert (Hs : StronglySorted (le_key timestamp) (rows w)).
  { apply serve_sorted; [done|constructor|constructor]. }
  split; [done|]. rewrite get_history_eq, order_by_sorted_id by done.
  split; [done|]. intros Hr env. exists (rows w). split; [done|].
  by rewrite generate_summary_sends_rows.
Qed.

Lemma monotone_clock_orders_table_witness :
  let reqs :=
    [ (stub 1 (inr []) (answer tome), PostChatText tablets);
      (stub 2 (inr []) (answer (lit "My head hurts")), PostChatText headache) ] in
  let w := snd (serve ascii_upper reqs empty_world) in
  StronglySorted (le_key timestamp) (rows w) /\
  get_history w = (Ok (rows w), w) /\
  exists l,
    fst (get_history w) = Ok l /\
    groq_log (snd (generate_summary (stub 3 (inr []) (answer [])) ascii_upper w))
    = groq_log w
      ++ [summarize_call (concat (List.map (transcript_line ascii_upper) l))].
Proof.
  intros reqs w.
  assert (Hc : clock_monotone reqs).
  { unfold clock_monotone. simpl. repeat constructor; lia. }
  destruct (monotone_clock_orders_table ascii_upper reqs Hc) as (Hs & Hh & Hg).
  split; [exact Hs|]. split; [exact Hh|].
  apply Hg. by vm_compute.
Defined.
